(** * CacheManager (SingletonPattern.cpp): a shallow embedding

    The C++ class [CacheManager] owns a
    [std::unordered_map<std::string, std::string>] and is reached through the
    static accessor [getInstance], built once by [std::call_once].

    - Part 1 models the member functions [put], [get], [clear], [size] and
      [print] as state transformers over the map; a C++ [throw] becomes the
      [Thrown] outcome and the map is threaded through explicitly.
    - Part 2 models the static members [instance] and [initInstanceFlag] and
      the accessor [getInstance] for a single thread of control.
    - Part 3 models several threads calling [getInstance], one atomic step of
      one thread at a time.
    - Parts 4 and 5 model the two other demonstrations of the repository:
      [HttpRequest] with its [Builder], and [PaymentFactory]. *)

From stdpp Require Import gmap strings list fin_maps sorting.

(** ** Part 1: the member functions of one CacheManager object *)

Module CacheManager.
#[local] Open Scope string_scope.

(** [std::invalid_argument], the only exception type the class throws. *)
Inductive exn : Type :=
  | invalid_argument (what : string).

(** How a call ends: it returns a value, or it leaves by an exception. *)
Inductive outcome (A : Type) : Type :=
  | Returned (a : A)
  | Thrown (e : exn).
Arguments Returned {A} a.
Arguments Thrown {A} e.

Definition threw {A} (o : outcome A) : bool :=
  match o with Returned _ => false | Thrown _ => true end.

(** The data member [cache]. *)
Abbreviation cache := (gmap string string).

(** A member function: it reads and updates the object's [cache] and ends
    with an outcome. *)
Definition method (A : Type) : Type := cache → outcome A * cache.

(** [std::string::empty]. *)
Definition empty (s : string) : bool :=
  match s with EmptyString => true | String _ _ => false end.

(** [void put(const std::string& key, const std::string& value)]:
    the guard throws before the map is touched, otherwise
    [cache[key] = value]. *)
Definition put (key value : string) : method unit := λ c,
  if empty key
  then (Thrown (invalid_argument "Cache key cannot be empty"), c)
  else (Returned (), <[key := value]> c).

(** [std::string get(const std::string& key)]: the same guard, then
    [cache.find(key)]; a miss returns the empty string literal. *)
Definition get (key : string) : method string := λ c,
  if empty key
  then (Thrown (invalid_argument "Cache key cannot be empty"), c)
  else match c !! key with
       | Some second => (Returned second, c)
       | None => (Returned "", c)
       end.

(** What [get] hands back on a miss: the [return ""] at its end. *)
Definition absent : outcome string := Returned "".

(** [void clear()]: [cache.clear()]. *)
Definition clear : method unit := λ _, (Returned (), ∅).

(** [size_t size()]: [cache.size()], the number of key-value pairs. *)
Definition size : method nat := λ c, (Returned (base.size c), c).

(** The line feed written by ["\n"]. *)
Definition endl : string := String (Ascii.ascii_of_nat 10) EmptyString.

(** One line of [print] for one pair of the map. *)
Definition print_entry (kv : string * string) : string :=
  "  Key: " +:+ kv.1 +:+ ", Value: " +:+ kv.2 +:+ endl.

(** [void print()]: the text written to [std::cout]. The iteration order of
    an unordered map is unspecified; the listing follows [map_to_list]. *)
Definition print : method string := λ c,
  (Returned ("Cache Contents:" +:+ endl +:+
             (if decide (c = ∅)
              then "  (empty)" +:+ endl
              else foldr (λ kv out, print_entry kv +:+ out) "" (map_to_list c))),
   c).

(** The store after a call, and what the call handed back. *)
Definition store_after {A} (r : outcome A * cache) : cache := r.2.
Definition result_of {A} (r : outcome A * cache) : outcome A := r.1.

(** Running a list of [put] calls, each on the store the previous one left;
    a call that throws is caught by the caller and the run goes on. *)
Fixpoint puts (kvs : list (string * string)) (c : cache) : cache :=
  match kvs with
  | [] => c
  | (k, v) :: rest => puts rest (store_after (put k v c))
  end.

(** The keys a run of [put] calls really stored something under. *)
Definition stored_keys (kvs : list (string * string)) : list string :=
  filter (λ k, empty k = false) (kvs.*1).

End CacheManager.

(** ** Part 2: the static members and the accessor, one thread of control *)

Module Process.
Import CacheManager.

(** [std::once_flag]: has [std::call_once] already run its callable to the
    end on this flag? *)
Inductive once_flag : Type :=
  | Uninitialized
  | Initialized.

(** A [CacheManager*] that is not null; [nullptr] is [None]. *)
Definition addr : Type := nat.

(** The static members of the class and the objects made by [new]. An
    object's address is its position in [heap]; nothing is ever deleted, so
    [length heap] counts the constructions. *)
Record process : Type := mkProcess {
  instance : option addr;
  initInstanceFlag : once_flag;
  heap : list cache;
}.

(** The static initialisers at the end of the file:
    [instance = nullptr], a fresh [once_flag], nothing allocated. *)
Definition start : process :=
  {| instance := None; initInstanceFlag := Uninitialized; heap := [] |}.

(** The number of [CacheManager] objects constructed so far. *)
Definition constructions (p : process) : nat := length (heap p).

(** [static void initSingleton()]: [instance = new CacheManager()]. The
    defaulted constructor makes an empty map. *)
Definition initSingleton (p : process) : process :=
  {| instance := Some (length (heap p));
     initInstanceFlag := initInstanceFlag p;
     heap := heap p ++ [∅] |}.

(** What [call_once] does to its flag when the callable has returned. *)
Definition set_called (p : process) : process :=
  {| instance := instance p;
     initInstanceFlag := Initialized;
     heap := heap p |}.

(** [std::call_once(initInstanceFlag, f)] with no other thread around: the
    callable runs only if the flag says it has not run yet. *)
Definition call_once (f : process → process) (p : process) : process :=
  match initInstanceFlag p with
  | Initialized => p
  | Uninitialized => set_called (f p)
  end.

(** [static CacheManager& getInstance()]: the reference returned is the
    address held by [instance]; dereferencing a null [instance] has no
    defined result, which is [None] here. *)
Definition getInstance (p : process) : option addr * process :=
  let p' := call_once initSingleton p in (instance p', p').

(** Calling member function [m] on the object a reference [h] designates.
    A reference to nothing allocated cannot be formed in the program, so
    the call is undefined there. *)
Definition call {A} (h : addr) (m : method A) (p : process)
  : option (outcome A * process) :=
  match heap p !! h with
  | Some c =>
      let r := m c in
      Some (r.1, {| instance := instance p;
                    initInstanceFlag := initInstanceFlag p;
                    heap := <[h := r.2]> (heap p) |})
  | None => None
  end.

(** The operations a client can perform, member calls on a reference. *)
Inductive op : Type :=
  | GetInstance
  | Put (h : addr) (key value : string)
  | Get (h : addr) (key : string)
  | Clear (h : addr)
  | Size (h : addr)
  | Print (h : addr).

(** One operation; an exception thrown by a member call is caught by the
    client, which carries on. *)
Definition exec (o : op) (p : process) : option process :=
  match o with
  | GetInstance => Some (getInstance p).2
  | Put h k v => snd <$> call h (put k v) p
  | Get h k => snd <$> call h (get k) p
  | Clear h => snd <$> call h clear p
  | Size h => snd <$> call h size p
  | Print h => snd <$> call h print p
  end.

(** The states a sequence of operations goes through, the first one
    included; [None] when some operation of the sequence is undefined. *)
Fixpoint trace (ops : list op) (p : process) : option (list process) :=
  match ops with
  | [] => Some [p]
  | o :: rest =>
      match exec o p with
      | Some q =>
          match trace rest q with
          | Some ps => Some (p :: ps)
          | None => None
          end
      | None => None
      end
  end.

(** How many times the gate changes along a list of its successive
    values. *)
Fixpoint transitions (fs : list once_flag) : nat :=
  match fs with
  | f :: (g :: _) as rest =>
      match f, g with
      | Uninitialized, Uninitialized | Initialized, Initialized =>
          transitions rest
      | _, _ => S (transitions rest)
      end
  | _ => 0
  end.

End Process.

(** ** Part 3: several threads calling the accessor

    One step is one atomic action of one thread; a run is an interleaving of
    such steps. [std::call_once] is taken as the C++ standard describes it:
    on a flag whose callable has not completed, one caller becomes the
    active execution and runs the callable, every other caller waits until
    that execution has ended, and the end of the active execution
    synchronises with the return of all other callers, so the waiting
    threads read what [initSingleton] wrote. *)

Module Threads.
Import CacheManager Process.

(** Where a thread stands inside [getInstance]. *)
Inductive pc : Type :=
  | AtCallOnce        (* about to enter std::call_once *)
  | InInitSingleton   (* the active execution, before the assignment *)
  | LeavingCallOnce   (* initSingleton has returned, flag not yet set *)
  | AtReturn.         (* call_once has returned, about to read *instance *)

(** A thread: the calls of [getInstance] it still has to finish, where it
    stands in the current one, and the references its finished calls
    returned, the latest first. *)
Record thread : Type := mkThread {
  remaining : nat;
  at_pc : pc;
  got : list addr;
}.

(** The whole program: the static members and heap, whether some thread is
    the active execution of [call_once], and the threads. *)
Record config : Type := mkConfig {
  shared : process;
  active : bool;
  threads : list thread;
}.

(** Thread [i] makes [ns !! i] calls; nothing has happened yet. *)
Definition spawn (ns : list nat) : config :=
  {| shared := start;
     active := false;
     threads := (λ n, {| remaining := n; at_pc := AtCallOnce; got := [] |}) <$> ns |}.

(** One atomic action of thread [i]; [None] when the thread does not exist,
    has finished, waits inside [call_once], or would dereference null. *)
Definition step (i : nat) (c : config) : option config :=
  match threads c !! i with
  | None => None
  | Some t =>
      match remaining t with
      | 0 => None
      | S n =>
          let move (s : process) (a : bool) (t' : thread) :=
            Some {| shared := s; active := a; threads := <[i := t']> (threads c) |} in
          let goto (l : pc) :=
            {| remaining := remaining t; at_pc := l; got := got t |} in
          match at_pc t with
          | AtCallOnce =>
              match initInstanceFlag (shared c) with
              | Initialized => move (shared c) (active c) (goto AtReturn)
              | Uninitialized =>
                  if active c then None
                  else move (shared c) true (goto InInitSingleton)
              end
          | InInitSingleton =>
              move (initSingleton (shared c)) (active c) (goto LeavingCallOnce)
          | LeavingCallOnce =>
              move (set_called (shared c)) false (goto AtReturn)
          | AtReturn =>
              match instance (shared c) with
              | Some a =>
                  move (shared c) (active c)
                       {| remaining := n; at_pc := AtCallOnce; got := a :: got t |}
              | None => None
              end
          end
      end
  end.

(** A schedule names the thread that moves at each step. *)
Fixpoint run (sched : list nat) (c : config) : option config :=
  match sched with
  | [] => Some c
  | i :: rest =>
      match step i c with
      | Some c' => run rest c'
      | None => None
      end
  end.

(** Every thread has finished all its calls. *)
Definition finished (c : config) : Prop :=
  Forall (λ t, remaining t = 0) (threads c).

(** The references handed out so far, over all threads. *)
Definition handles (c : config) : list addr :=
  threads c ≫= got.

(** The steps a thread still has to take are at most this many. *)
Definition steps_left (t : thread) : nat :=
  match remaining t with
  | 0 => 0
  | S n =>
      4 * n + match at_pc t with
              | AtCallOnce => 4
              | InInitSingleton => 3
              | LeavingCallOnce => 2
              | AtReturn => 1
              end
  end.

Definition fuel (c : config) : nat :=
  foldr (λ t acc, steps_left t + acc) 0 (threads c).

(** The calls a thread was started with: those it has left and those it
    has finished. *)
Definition calls (t : thread) : nat := remaining t + length (got t).

(** The four phases a run goes through: nobody has entered [call_once];
    thread [i] is the active execution and has not assigned [instance] yet;
    it has assigned it; the flag is set. *)
Inductive phase : Type :=
  | Fresh
  | Building (i : nat)
  | Built (i : nat)
  | Ready.

(** What a phase says about the shared state. *)
Definition shared_ok (ph : phase) (c : config) : Prop :=
  match ph with
  | Fresh => shared c = start ∧ active c = false
  | Building i =>
      shared c = start ∧ active c = true ∧ i < length (threads c)
  | Built i =>
      shared c = initSingleton start ∧ active c = true ∧ i < length (threads c)
  | Ready => shared c = set_called (initSingleton start) ∧ active c = false
  end.

(** What a phase says about thread [j]. *)
Definition thread_ok (ph : phase) (j : nat) (t : thread) : Prop :=
  match ph with
  | Fresh => got t = [] ∧ at_pc t = AtCallOnce
  | Building i =>
      got t = [] ∧
      if decide (j = i) then at_pc t = InInitSingleton ∧ 0 < remaining t
      else at_pc t = AtCallOnce
  | Built i =>
      got t = [] ∧
      if decide (j = i) then at_pc t = LeavingCallOnce ∧ 0 < remaining t
      else at_pc t = AtCallOnce
  | Ready =>
      (∀ h, h ∈ got t → h = 0) ∧
      (at_pc t = AtCallOnce ∨ at_pc t = AtReturn ∧ 0 < remaining t)
  end.

(** The invariant of every run from [spawn]. *)
Definition inv (c : config) : Prop :=
  ∃ ph, shared_ok ph c ∧ ∀ j t, threads c !! j = Some t → thread_ok ph j t.

(** Case analysis of one step: the thread that moves, and the five moves
    of [step]. *)
Ltac unstep H t n :=
  let Ht := fresh "Ht" in
  let Hn := fresh "Hn" in
  let Hpc := fresh "Hpc" in
  let Hflag := fresh "Hflag" in
  let Hact := fresh "Hact" in
  let Hinst := fresh "Hinst" in
  unfold step in H; cbv zeta in H;
  destruct (threads _ !! _) as [t|] eqn:Ht; [|discriminate H];
  destruct (remaining t) as [|n] eqn:Hn; [discriminate H|];
  destruct (at_pc t) eqn:Hpc;
  [ destruct (initInstanceFlag _) eqn:Hflag;
    [ destruct (active _) eqn:Hact; [discriminate H|] | ]
  | | | destruct (instance _) as [?a|] eqn:Hinst; [|discriminate H] ];
  injection H as <-.

End Threads.

(** ** Part 4: HttpRequest and its Builder (BuilderPattern.cpp) *)

Module HttpRequest.
Import CacheManager.
#[local] Open Scope string_scope.

(** The built request; its constructor is private, so [Builder.build] is the
    only way to make one. The two [std::map] members are finite maps; their
    iteration order is given by [entries] below. *)
Record HttpRequest : Type := mkHttpRequest {
  url : string;
  method : string;
  headers : gmap string string;
  queryParams : gmap string string;
  body : string;
}.

Module Builder.

(** [class Builder]: the same five members. *)
Record Builder : Type := mkBuilder {
  url : string;
  method : string;
  headers : gmap string string;
  queryParams : gmap string string;
  body : string;
}.

(** [Builder(const std::string& url, const std::string& method)]: the URL
    is checked first, then the method; the maps and the body start empty. *)
Definition new (url method : string) : outcome Builder :=
  if empty url then Thrown (invalid_argument "URL is Required")
  else if empty method then Thrown (invalid_argument "HTTP Method is Required")
  else Returned {| url := url; method := method;
                   headers := ∅; queryParams := ∅; body := "" |}.

(** [Builder& addHeader(key, value)]: [headers[key] = value]. *)
Definition addHeader (key value : string) (b : Builder) : Builder :=
  {| url := url b; method := method b;
     headers := <[key := value]> (headers b);
     queryParams := queryParams b; body := body b |}.

(** [Builder& addQueryParam(key, value)]: [queryParams[key] = value]. *)
Definition addQueryParam (key value : string) (b : Builder) : Builder :=
  {| url := url b; method := method b;
     headers := headers b;
     queryParams := <[key := value]> (queryParams b); body := body b |}.

(** [Builder& setBody(bodyContent)]. *)
Definition setBody (bodyContent : string) (b : Builder) : Builder :=
  {| url := url b; method := method b;
     headers := headers b;
     queryParams := queryParams b; body := bodyContent |}.

(** [HttpRequest build() const]: the five members are copied. *)
Definition build (b : Builder) : HttpRequest :=
  mkHttpRequest (url b) (method b) (headers b) (queryParams b) (body b).

(** One link of a chain [.addHeader(..).addQueryParam(..).setBody(..)]. *)
Inductive link : Type :=
  | AddHeader (key value : string)
  | AddQueryParam (key value : string)
  | SetBody (bodyContent : string).

Definition apply_link (l : link) (b : Builder) : Builder :=
  match l with
  | AddHeader k v => addHeader k v b
  | AddQueryParam k v => addQueryParam k v b
  | SetBody s => setBody s b
  end.

(** A chain of calls, applied from left to right. *)
Definition chain (ls : list link) (b : Builder) : Builder :=
  foldl (λ b l, apply_link l b) b ls.

End Builder.

(** The order of two pairs in a [std::map<std::string, ...>]: by key, with
    [std::less<std::string>], which compares byte by byte. *)
Definition key_le (a b : string * string) : Prop := String.le a.1 b.1.

Global Instance key_le_dec : RelDecision key_le.
Proof. intros a b. unfold key_le. apply _. Defined.

(** The pairs a range-for over a [std::map] visits: ascending keys. *)
Definition entries (m : gmap string string) : list (string * string) :=
  merge_sort key_le (map_to_list m).

(** The loop over [queryParams] in [toString], with its [first] flag. *)
Fixpoint query_loop (first : bool) (params : list (string * string)) : string :=
  match params with
  | [] => ""
  | param :: rest =>
      (if first then "" else "&") +:+ param.1 +:+ "=" +:+ param.2 +:+
      query_loop false rest
  end.

(** The loop over [headers] in [toString]. *)
Definition header_lines (hs : list (string * string)) : string :=
  foldr (λ header out, "  " +:+ header.1 +:+ ": " +:+ header.2 +:+ endl +:+ out)
        "" hs.

(** [std::string toString() const]. *)
Definition toString (r : HttpRequest) : string :=
  method r +:+ " " +:+ url r +:+
  (if decide (queryParams r = ∅) then ""
   else "?" +:+ query_loop true (entries (queryParams r))) +:+
  endl +:+
  (if decide (headers r = ∅) then ""
   else "Headers:" +:+ endl +:+ header_lines (entries (headers r))) +:+
  (if empty (body r) then ""
   else "Body:" +:+ endl +:+ "  " +:+ body r +:+ endl).

End HttpRequest.

(** ** Part 5: the payment factory (FactoryPattern.cpp) *)

Module PaymentFactory.
Import CacheManager.
#[local] Open Scope string_scope.

(** The four concrete classes behind [PaymentMethod*]. *)
Inductive PaymentMethod : Type :=
  | CreditCard
  | DebitCard
  | UPI
  | NetBanking.

(** [void pay(double amount)] of each class: the line written to
    [std::cout]. How [operator<<] renders a [double] is not modelled; the
    rendered text of the amount is the argument. *)
Definition pay (p : PaymentMethod) (amount : string) : string :=
  match p with
  | CreditCard =>
      "Payment Processing from Credit Card for amount = " +:+ amount +:+ endl
  | DebitCard =>
      "Payment Processing for Debit Card for amount = " +:+ amount +:+ endl
  | UPI =>
      "Payment Processing for UPI for amount = " +:+ amount +:+ endl
  | NetBanking =>
      "Payment Processing for NetBanking for amount = " +:+ amount +:+ endl
  end.

(** [static PaymentMethod* createPayment(const string& mode)]; [nullptr]
    is [None]. *)
Definition createPayment (mode : string) : option PaymentMethod :=
  if String.eqb mode "creditcard" then Some CreditCard
  else if String.eqb mode "debitcard" then Some DebitCard
  else if String.eqb mode "upi" then Some UPI
  else if String.eqb mode "netbanking" then Some NetBanking
  else None.

(** The modes [createPayment] knows. *)
Definition modes : list string :=
  ["creditcard"; "debitcard"; "upi"; "netbanking"].

End PaymentFactory.

(** * Properties of the member functions *)

Section StoreFacts.
Import CacheManager.
#[local] Open Scope string_scope.

Implicit Types (c : cache) (k key v value : string).

Lemma empty_true k : empty k = true ↔ k = "".
Proof. destruct k; simpl; split; congruence. Qed.

Lemma empty_false k : empty k = false ↔ k ≠ "".
Proof. destruct k; simpl; split; congruence. Qed.

Lemma put_ok k v c : k ≠ "" → put k v c = (Returned (), <[k := v]> c).
Proof. intros Hk. unfold put. by apply empty_false in Hk as ->. Qed.

Lemma get_hit k v c : k ≠ "" → c !! k = Some v → get k c = (Returned v, c).
Proof. intros Hk Hv. unfold get. apply empty_false in Hk as ->. by rewrite Hv. Qed.

Lemma get_miss k c : k ≠ "" → c !! k = None → get k c = (absent, c).
Proof. intros Hk Hv. unfold get. apply empty_false in Hk as ->. by rewrite Hv. Qed.

Lemma put_throws v c :
  put "" v c = (Thrown (invalid_argument "Cache key cannot be empty"), c).
Proof. reflexivity. Qed.

Lemma get_throws c :
  get "" c = (Thrown (invalid_argument "Cache key cannot be empty"), c).
Proof. reflexivity. Qed.

Lemma puts_app kvs1 kvs2 c : puts (kvs1 ++ kvs2) c = puts kvs2 (puts kvs1 c).
Proof.
  revert c. induction kvs1 as [|[k v] kvs1 IH]; intros c; simpl; [done|].
  apply IH.
Qed.

Lemma puts_keeps kvs c k : is_Some (c !! k) → is_Some (puts kvs c !! k).
Proof.
  revert c. induction kvs as [|[k' v'] kvs IH]; intros c Hc; simpl; [done|].
  apply IH. unfold put, store_after.
  destruct (empty k'); simpl; [done|].
  apply lookup_insert_is_Some. destruct (decide (k' = k)); auto.
Qed.

Lemma puts_stores kvs c k : k ∈ stored_keys kvs → is_Some (puts kvs c !! k).
Proof.
  unfold stored_keys. revert c.
  induction kvs as [|[k' v'] kvs IH]; intros c; simpl.
  - intros H. by apply elem_of_nil in H.
  - rewrite filter_cons. simpl. destruct (decide (empty k' = false)) as [Hk'|Hk'].
    + intros [->|Hin]%elem_of_cons.
      * apply puts_keeps. unfold put, store_after. rewrite Hk'. simpl.
        rewrite lookup_insert_eq. eauto.
      * by apply IH.
    + intros Hin. by apply IH.
Qed.

End StoreFacts.

Section StoreClaims.
Import CacheManager.
#[local] Open Scope string_scope.

Implicit Types (c : cache) (k key v value : string).

(** C1, as the code has it: for a non-empty key [k] that is not in the
    store, [get k] returns the empty string and leaves the store as it was;
    for a key that is in the store it returns the stored value. The result on
    a miss differs from the result on every key stored with a non-empty
    value, and only from those. *)
Theorem get_miss_is_empty_string c k :
  k ≠ "" → c !! k = None →
  get k c = (Returned "", c) ∧
  (∀ k' v, k' ≠ "" → c !! k' = Some v →
     result_of (get k' c) = Returned v ∧
     (result_of (get k' c) ≠ result_of (get k c) ↔ v ≠ "")).
Proof.
  intros Hk Hmiss. rewrite (get_miss k c Hk Hmiss). split; [done|].
  intros k' v Hk' Hv. rewrite (get_hit k' v c Hk' Hv). simpl.
  split; [done|]. unfold absent. split.
  - intros Hne ->. by apply Hne.
  - intros Hne [=]. by apply Hne.
Qed.

Lemma get_miss_is_empty_string_witness :
  get "b" {["a" := "x"]} = (Returned "", {["a" := "x"]}) ∧
  (∀ k' v, k' ≠ "" → ({["a" := "x"]} : cache) !! k' = Some v →
     result_of (get k' {["a" := "x"]}) = Returned v ∧
     (result_of (get k' {["a" := "x"]}) ≠ result_of (get "b" {["a" := "x"]})
      ↔ v ≠ "")).
Proof.
  apply (get_miss_is_empty_string {["a" := "x"]} "b").
  - discriminate.
  - reflexivity.
Defined.

(** C1, as the spec words it, fails: with ["a"] stored with the empty string
    and ["b"] not stored, [get] gives the same result on both, so the result
    on a miss is not distinguishable from every stored value. *)
Lemma get_miss_not_distinguishable :
  ¬ (∀ c k, k ≠ "" → c !! k = None →
       ∀ k' v, k' ≠ "" → c !! k' = Some v →
         result_of (get k c) ≠ result_of (get k' c)).
Proof.
  intros H.
  apply (H {["a" := ""]} "b" ltac:(discriminate) ltac:(reflexivity)
           "a" "" ltac:(discriminate) ltac:(reflexivity)).
  reflexivity.
Qed.

(** C3: [put "" x] and [get ""] both leave by [std::invalid_argument], and
    the store each of them leaves is the store it was called on. *)
Theorem empty_key_rejected x c :
  (∃ what, result_of (put "" x c) = Thrown (invalid_argument what)) ∧
  store_after (put "" x c) = c ∧
  (∃ what, result_of (get "" c) = Thrown (invalid_argument what)) ∧
  store_after (get "" c) = c.
Proof.
  rewrite put_throws, get_throws. simpl. eauto 6.
Qed.

(** C4: for a non-empty key, [put k v] succeeds and [get k] on the store it
    leaves returns [v], whatever the store held before. *)
Theorem put_get_roundtrip k v c :
  k ≠ "" →
  result_of (put k v c) = Returned () ∧
  result_of (get k (store_after (put k v c))) = Returned v.
Proof.
  intros Hk. rewrite (put_ok k v c Hk). simpl. split; [done|].
  by rewrite (get_hit k v _ Hk (lookup_insert_eq _ _ _)).
Qed.

Lemma put_get_roundtrip_witness :
  result_of (put "k" "v" {["k" := "old"]}) = Returned () ∧
  result_of (get "k" (store_after (put "k" "v" {["k" := "old"]}))) = Returned "v".
Proof. apply (put_get_roundtrip "k" "v" {["k" := "old"]}). discriminate. Defined.

(** C5: for a non-empty key, [put k v1] then [put k v2] leaves [get k]
    returning [v2], and [size] after the second [put] is what it was after
    the first. *)
Theorem overwrite_keeps_size k v1 v2 c :
  k ≠ "" →
  let c1 := store_after (put k v1 c) in
  let c2 := store_after (put k v2 c1) in
  result_of (get k c2) = Returned v2 ∧
  result_of (size c2) = result_of (size c1).
Proof.
  intros Hk c1 c2. subst c1 c2. rewrite !(put_ok k) by done. simpl. split.
  - by rewrite (get_hit k v2 _ Hk (lookup_insert_eq _ _ _)).
  - unfold size, result_of. simpl. f_equal.
    apply map_size_insert_Some. rewrite lookup_insert_eq. eauto.
Qed.

Lemma overwrite_keeps_size_witness :
  let c1 := store_after (put "k" "v1" ∅) in
  let c2 := store_after (put "k" "v2" c1) in
  result_of (get "k" c2) = Returned "v2" ∧
  result_of (size c2) = result_of (size c1).
Proof. apply (overwrite_keeps_size "k" "v1" "v2" ∅). discriminate. Defined.

(** C6: after any run of [put] calls on any store, [clear] leaves a store
    whose [size] is 0, and on which [get k] gives the result of a miss for
    every key [k] that one of the calls stored (such a key was in the store
    before the [clear]). *)
Theorem clear_empties kvs c :
  let c' := store_after (clear (puts kvs c)) in
  result_of (size c') = Returned 0 ∧
  ∀ k, k ∈ stored_keys kvs →
    is_Some (puts kvs c !! k) ∧ get k c' = (absent, c').
Proof.
  simpl. split; [done|]. intros k Hin. split.
  - by apply puts_stores.
  - apply get_miss; [|apply lookup_empty].
    apply empty_false. unfold stored_keys in Hin.
    by apply list_elem_of_filter in Hin as [? _].
Qed.

Lemma clear_empties_witness :
  let kvs := [("a", "1"); ("", "2"); ("b", "3"); ("a", "4")] in
  let c' := store_after (clear (puts kvs ∅)) in
  result_of (size c') = Returned 0 ∧
  (is_Some (puts kvs ∅ !! "b") ∧ get "b" c' = (absent, c')).
Proof.
  intros kvs c'.
  pose proof (clear_empties kvs ∅) as [Hsize Hget].
  split; [exact Hsize|]. apply Hget.
  vm_compute. apply list_elem_of_further, list_elem_of_here.
Defined.

(** C7: [put] and [get] throw exactly when the key is the empty string, what
    they throw is [std::invalid_argument], and [clear], [size] and [print]
    return on every store. *)
Theorem only_empty_key_fails :
  (∀ k v c, threw (result_of (put k v c)) = true ↔ k = "") ∧
  (∀ k c, threw (result_of (get k c)) = true ↔ k = "") ∧
  (∀ c, threw (result_of (clear c)) = false ∧
        threw (result_of (size c)) = false ∧
        threw (result_of (print c)) = false) ∧
  (∀ k v c e,
     result_of (put k v c) = Thrown e ∨ result_of (get k c) = Thrown e →
     k = "" ∧ ∃ what, e = invalid_argument what).
Proof.
  split; [|split; [|split]].
  - intros k v c. rewrite <- empty_true. unfold put. by destruct (empty k).
  - intros k c. rewrite <- empty_true. unfold get.
    destruct (empty k); [done|]. by destruct (c !! k).
  - done.
  - intros k v c [what] H. split; [|by eexists].
    apply empty_true. unfold put, get in H.
    destruct (empty k); [done|]. simpl in H.
    destruct H as [H|H]; [done|]. by destruct (c !! k).
Qed.

Lemma only_empty_key_fails_witness :
  threw (result_of (put "" "x" {["a" := "1"]})) = true ∧
  threw (result_of (get "a" {["a" := "1"]})) = false ∧
  threw (result_of (print {["a" := "1"]})) = false.
Proof.
  destruct only_empty_key_fails as (Hput & Hget & Hrest & _).
  split; [by apply Hput|]. split; [|apply Hrest].
  destruct (threw (result_of (get "a" {["a" := "1"]}))) eqn:E; [|done].
  by apply Hget in E.
Defined.

(** C9: [put k v] with a non-empty [k] leaves the result of [get] on every
    other key as it was; [size] grows by exactly one when [k] was not in
    the store and stays the same when it was. *)
Theorem put_frame k v c :
  k ≠ "" →
  let c' := store_after (put k v c) in
  (∀ k', k' ≠ k → result_of (get k' c') = result_of (get k' c)) ∧
  (∀ n, result_of (size c) = Returned n →
        result_of (size c') =
        Returned (match c !! k with Some _ => n | None => S n end)).
Proof.
  intros Hk c'. subst c'. rewrite (put_ok k v c Hk). simpl. split.
  - intros k' Hne. unfold get. destruct (empty k'); [done|].
    rewrite lookup_insert_ne by done. by destruct (c !! k').
  - intros n [= <-]. unfold size, result_of. simpl. f_equal.
    rewrite map_size_insert. by destruct (c !! k).
Qed.

Lemma put_frame_witness :
  let c : cache := {["a" := "1"]} in
  let c' := store_after (put "b" "2" c) in
  (∀ k', k' ≠ "b" → result_of (get k' c') = result_of (get k' c)) ∧
  (∀ n, result_of (size c) = Returned n →
        result_of (size c') =
        Returned (match c !! "b" with Some _ => n | None => S n end)).
Proof. apply (put_frame "b" "2" {["a" := "1"]}). discriminate. Defined.

(** C10: for a non-empty key [k], after [put k ""] the key is in the store
    and [get k] returns the empty string, which is exactly what [get k]
    returns on a store that does not hold [k]. *)
Theorem empty_value_looks_absent k c c0 :
  k ≠ "" → c0 !! k = None →
  let c' := store_after (put k "" c) in
  c' !! k = Some "" ∧
  result_of (get k c') = Returned "" ∧
  result_of (get k c') = result_of (get k c0).
Proof.
  intros Hk Hmiss c'. subst c'. rewrite (put_ok k "" c Hk). simpl.
  rewrite (get_miss k c0 Hk Hmiss).
  rewrite (get_hit k "" _ Hk (lookup_insert_eq _ _ _)).
  by rewrite lookup_insert_eq.
Qed.

Lemma empty_value_looks_absent_witness :
  let c' := store_after (put "k" "" {["a" := "1"]}) in
  c' !! "k" = Some "" ∧
  result_of (get "k" c') = Returned "" ∧
  result_of (get "k" c') = result_of (get "k" {["a" := "1"]}).
Proof.
  apply (empty_value_looks_absent "k" {["a" := "1"]} {["a" := "1"]}).
  - discriminate.
  - reflexivity.
Defined.

End StoreClaims.

(** * Properties of the initialisation gate, one thread of control *)

Section GateFacts.
Import CacheManager Process.

Lemma call_keeps_statics {A} h (m : method A) p r :
  call h m p = Some r →
  initInstanceFlag r.2 = initInstanceFlag p ∧
  instance r.2 = instance p ∧
  length (heap r.2) = length (heap p).
Proof.
  unfold call. destruct (heap p !! h); [|done].
  intros [= <-]. simpl. by rewrite length_insert.
Qed.

Lemma getInstance_gate p : initInstanceFlag (getInstance p).2 = Initialized.
Proof.
  unfold getInstance, call_once. simpl.
  by destruct (initInstanceFlag p) eqn:E.
Qed.

(** The only operation that moves the gate is [getInstance], and it moves
    it to [Initialized]. *)
Lemma exec_gate o p q :
  exec o p = Some q →
  initInstanceFlag q = Initialized ↔
  initInstanceFlag p = Initialized ∨ o = GetInstance.
Proof.
  destruct o; unfold exec.
  1: { intros [= <-]. pose proof (getInstance_gate p). naive_solver. }
  all: intros [r [Hr ->]]%fmap_Some;
    apply call_keeps_statics in Hr as (-> & _);
    split; [auto | intros [?|?]; [done | discriminate]].
Qed.

Lemma trace_head ops p ps : trace ops p = Some ps → ∃ tl, ps = p :: tl.
Proof.
  destruct ops as [|o rest]; simpl.
  - intros [= <-]. eauto.
  - destruct (exec o p); [|done]. destruct (trace rest p0); [|done].
    intros [= <-]. eauto.
Qed.

Lemma trace_length ops p ps : trace ops p = Some ps → length ps = S (length ops).
Proof.
  revert p ps. induction ops as [|o rest IH]; intros p ps; simpl.
  - by intros [= <-].
  - destruct (exec o p) as [q|]; [|done].
    destruct (trace rest q) as [ps'|] eqn:E; [|done].
    intros [= <-]. simpl. f_equal. by eapply IH.
Qed.

(** The gate at step [i] of a run is [Initialized] exactly when it was so
    at the start or an earlier operation was a call of [getInstance]. *)
Lemma trace_gate ops p ps i q :
  trace ops p = Some ps → ps !! i = Some q →
  initInstanceFlag q = Initialized ↔
  initInstanceFlag p = Initialized ∨ GetInstance ∈ take i ops.
Proof.
  revert p ps i. induction ops as [|o rest IH]; intros p ps i; simpl.
  - intros [= <-]. destruct i as [|i]; simpl; [|done].
    intros [= <-]. rewrite elem_of_nil. tauto.
  - destruct (exec o p) as [q0|] eqn:Ho; [|done].
    destruct (trace rest q0) as [ps'|] eqn:E; [|done].
    intros [= <-]. destruct i as [|i]; simpl.
    + intros [= <-]. rewrite elem_of_nil. tauto.
    + intros Hq. rewrite (IH _ _ _ E Hq), (exec_gate _ _ _ Ho).
      rewrite elem_of_cons. split; [intros [[?|?]|?]|intros [?|[?|?]]]; auto.
Qed.

Lemma trace_transitions ops p ps :
  trace ops p = Some ps →
  (transitions (initInstanceFlag <$> ps) ≤
   match initInstanceFlag p with Initialized => 0 | Uninitialized => 1 end).
Proof.
  revert p ps. induction ops as [|o rest IH]; intros p ps; simpl.
  - intros [= <-]. simpl. destruct (initInstanceFlag p); lia.
  - destruct (exec o p) as [q0|] eqn:Ho; [|done].
    destruct (trace rest q0) as [ps'|] eqn:E; [|done].
    intros [= <-]. specialize (IH _ _ E).
    destruct (trace_head _ _ _ E) as [tl ->].
    pose proof (exec_gate _ _ _ Ho) as Hstep.
    cbn [fmap list_fmap transitions] in *.
    destruct (initInstanceFlag p), (initInstanceFlag q0); try lia.
    assert (Uninitialized = Initialized) by (apply Hstep; by left). done.
Qed.

End GateFacts.

Section GateClaims.
Import CacheManager Process.

(** C8: the gate has two values. Along the states any sequence of
    [getInstance], [put], [get], [clear], [size] and [print] operations goes
    through from the program's start, the gate is [Initialized] at a state
    exactly when a [getInstance] call came before it, so the first such call
    is what moves it; it changes at most once; and once [Initialized] it is
    [Initialized] at every later state. *)
Theorem gate_one_way ops ps :
  trace ops start = Some ps →
  let gates := initInstanceFlag <$> ps in
  (∀ g : once_flag, g = Uninitialized ∨ g = Initialized) ∧
  (∀ i g, gates !! i = Some g →
          g = Initialized ↔ GetInstance ∈ take i ops) ∧
  transitions gates ≤ 1 ∧
  (∀ i j g, i ≤ j → gates !! i = Some Initialized → gates !! j = Some g →
            g = Initialized).
Proof.
  intros Htr gates. subst gates.
  assert (Hchar : ∀ i g, (initInstanceFlag <$> ps) !! i = Some g →
                         g = Initialized ↔ GetInstance ∈ take i ops).
  { intros i g. rewrite list_lookup_fmap.
    intros [q [Hq ->]]%fmap_Some.
    rewrite (trace_gate _ _ _ _ _ Htr Hq). simpl.
    split; [intros [?|?]; [done|auto] | auto]. }
  split; [intros []; auto|]. split; [exact Hchar|]. split.
  - apply (trace_transitions _ _ _ Htr).
  - intros i j g Hij Hi Hj. apply (Hchar _ _ Hj).
    assert (Hin : GetInstance ∈ take i ops) by by apply (Hchar _ _ Hi).
    apply elem_of_take in Hin as (n & Hn & Hlt).
    apply elem_of_take. exists n. split; [done|lia].
Qed.

Lemma gate_one_way_witness :
  let ops := [GetInstance; Put 0 "user:123" "Alice Smith"; GetInstance; Clear 0] in
  ∃ ps, trace ops start = Some ps ∧
  let gates := initInstanceFlag <$> ps in
  (∀ g : once_flag, g = Uninitialized ∨ g = Initialized) ∧
  (∀ i g, gates !! i = Some g →
          g = Initialized ↔ GetInstance ∈ take i ops) ∧
  transitions gates ≤ 1 ∧
  (∀ i j g, i ≤ j → gates !! i = Some Initialized → gates !! j = Some g →
            g = Initialized).
Proof.
  intros ops. eexists. split; [reflexivity|].
  apply (gate_one_way ops). reflexivity.
Defined.

End GateClaims.

(** * Properties of concurrent calls of the accessor *)

Section ThreadFacts.
Import CacheManager Process Threads.

Implicit Types (c : config) (t : thread) (i j : nat).

Lemma run_app sched1 sched2 c :
  run (sched1 ++ sched2) c = run sched1 c ≫= run sched2.
Proof.
  revert c. induction sched1 as [|i sched1 IH]; intros c; simpl; [done|].
  destruct (step i c); [apply IH|done].
Qed.

Lemma inv_spawn ns : inv (spawn ns).
Proof.
  exists Fresh. split; [done|]. intros j t. unfold spawn. simpl.
  rewrite list_lookup_fmap. by intros [n [_ ->]]%fmap_Some.
Qed.

Lemma step_inv i c c' : step i c = Some c' → inv c → inv c'.
Proof.
  intros Hstep (ph & Hsh & Hth).
  unstep Hstep t n; pose proof (Hth _ _ Ht) as Hok;
    pose proof (lookup_lt_Some _ _ _ Ht) as Hlt;
    destruct ph as [|i0|i0|]; simpl in Hsh, Hok;
    repeat match goal with
           | H : _ ∧ _ |- _ => destruct H
           | H : _ ∨ _ |- _ => destruct H
           | H : context [decide (?y = ?x)] |- _ => destruct (decide (y = x)) as [<-|?]
           | H : shared c = _ |- _ => rewrite H in *; clear H
           end; simpl in *; try congruence.
  - (* first caller: becomes the active execution *)
    exists (Building i). split; [simpl; by rewrite length_insert|].
    intros j t' [(-> & <- & _)|(Hne & Hj)]%list_lookup_insert_Some; simpl.
    + rewrite decide_True by done. split; [done|]. split; [done|lia].
    + rewrite decide_False by done. by apply (Hth _ _ Hj).
  - (* caller that finds the flag set *)
    exists Ready. split; [done|].
    intros j t' [(-> & <- & _)|(Hne & Hj)]%list_lookup_insert_Some; simpl.
    + split; [done|]. right. split; [done|lia].
    + by apply (Hth _ _ Hj).
  - (* the assignment in initSingleton *)
    exists (Built i). split; [simpl; by rewrite length_insert|].
    intros j t' [(-> & <- & _)|(Hne & Hj)]%list_lookup_insert_Some; simpl.
    + rewrite decide_True by done. split; [done|]. split; [done|lia].
    + rewrite decide_False by done. specialize (Hth _ _ Hj). simpl in Hth.
      by rewrite decide_False in Hth by done.
  - (* the active execution ends *)
    exists Ready. split; [done|].
    intros j t' [(-> & <- & _)|(Hne & Hj)]%list_lookup_insert_Some; simpl.
    + split; [|right; split; [done|lia]].
      intros h. match goal with H : got t = [] |- _ => rewrite H end.
      by intros ?%elem_of_nil.
    + specialize (Hth _ _ Hj). simpl in Hth.
      rewrite decide_False in Hth by done. destruct Hth as [-> ->].
      split; [by intros h ?%elem_of_nil|by left].
  - (* the reference is returned *)
    exists Ready. split; [done|].
    intros j t' [(-> & <- & _)|(Hne & Hj)]%list_lookup_insert_Some; simpl.
    + split; [|by left]. intros h [->|Hin]%elem_of_cons; [congruence|auto].
    + by apply (Hth _ _ Hj).
Qed.

Lemma run_inv sched c c' : run sched c = Some c' → inv c → inv c'.
Proof.
  revert c. induction sched as [|i sched IH]; intros c; simpl.
  - by intros [= <-].
  - destruct (step i c) as [c1|] eqn:Hstep; [|done].
    intros Hrun Hinv. apply (IH _ Hrun). by apply (step_inv i c).
Qed.

(** What the invariant says about the heap and about the references
    handed out. *)
Lemma inv_one_store c :
  inv c →
  constructions (shared c) ≤ 1 ∧
  ∀ h, h ∈ handles c →
       shared c = set_called (initSingleton start) ∧ h = 0.
Proof.
  intros (ph & Hsh & Hth). split.
  - unfold constructions.
    destruct ph; simpl in Hsh; destruct Hsh as [-> _]; simpl; lia.
  - intros h (t & Hh & [j Hj]%list_elem_of_lookup)%list_elem_of_bind.
    specialize (Hth _ _ Hj).
    destruct ph; simpl in Hsh, Hth.
    1-3: destruct Hth as [Hgot _]; rewrite Hgot in Hh;
      by apply elem_of_nil in Hh.
    destruct Hsh as [-> _], Hth as [Hgot _]. auto.
Qed.

(** No deadlock: while some thread has calls left, some thread can move. *)
Lemma inv_progress c j t :
  inv c → threads c !! j = Some t → remaining t ≠ 0 →
  ∃ i c', step i c = Some c'.
Proof.
  intros (ph & Hsh & Hth) Hj Hrem.
  destruct ph as [|i|i|]; simpl in Hsh.
  - destruct Hsh as [Hs Ha]. destruct (Hth _ _ Hj) as [_ Hpc].
    exists j. unfold step. rewrite Hj.
    destruct (remaining t); [done|]. rewrite Hpc, Hs, Ha. simpl. eauto.
  - destruct Hsh as (Hs & Ha & Hlt).
    destruct (lookup_lt_is_Some_2 _ _ Hlt) as [ti Hi].
    pose proof (Hth _ _ Hi) as [_ Hok]. rewrite decide_True in Hok by done.
    destruct Hok as [Hpc Hpos]. exists i. unfold step. rewrite Hi.
    destruct (remaining ti); [lia|]. rewrite Hpc. eauto.
  - destruct Hsh as (Hs & Ha & Hlt).
    destruct (lookup_lt_is_Some_2 _ _ Hlt) as [ti Hi].
    pose proof (Hth _ _ Hi) as [_ Hok]. rewrite decide_True in Hok by done.
    destruct Hok as [Hpc Hpos]. exists i. unfold step. rewrite Hi.
    destruct (remaining ti); [lia|]. rewrite Hpc. eauto.
  - destruct Hsh as [Hs Ha]. destruct (Hth _ _ Hj) as [_ Hpc].
    exists j. unfold step. rewrite Hj.
    destruct (remaining t); [done|]. rewrite Hs.
    destruct Hpc as [->|[-> _]]; simpl; eauto.
Qed.

Lemma fuel_insert (l : list thread) i t t' :
  l !! i = Some t → steps_left t' < steps_left t →
  foldr (λ t acc, steps_left t + acc) 0 (<[i := t']> l) <
  foldr (λ t acc, steps_left t + acc) 0 l.
Proof.
  revert i. induction l as [|a l IH]; intros [|i]; simpl; try done.
  - intros [= ->] Hlt. lia.
  - intros Hi Hlt. specialize (IH _ Hi Hlt). lia.
Qed.

(** Every step uses up fuel, so every run ends. *)
Lemma step_fuel i c c' : step i c = Some c' → fuel c' < fuel c.
Proof.
  intros Hstep. unstep Hstep t n; unfold fuel; simpl;
    apply (fuel_insert _ _ t); try done;
    unfold steps_left; simpl; rewrite ?Hn, ?Hpc; try lia.
  destruct n; lia.
Qed.

Lemma run_fuel sched c c' :
  run sched c = Some c' → length sched + fuel c' ≤ fuel c.
Proof.
  revert c. induction sched as [|i sched IH]; intros c; simpl.
  - intros [= <-]. lia.
  - destruct (step i c) as [c1|] eqn:Hstep; [|done].
    intros Hrun. specialize (IH _ Hrun). apply step_fuel in Hstep. lia.
Qed.

(** From any state of a run, some schedule takes every thread to the end
    of its calls. *)
Lemma inv_completes c :
  inv c → ∃ sched c', run sched c = Some c' ∧ finished c'.
Proof.
  remember (fuel c) as n eqn:Hn. revert c Hn.
  induction n as [n IH] using lt_wf_ind. intros c -> Hinv.
  destruct (decide (finished c)) as [Hfin|Hnot].
  - exists [], c. by split.
  - apply not_Forall_Exists in Hnot; [|apply _].
    apply Exists_exists in Hnot as (t & [j Hj]%list_elem_of_lookup & Hrem).
    destruct (inv_progress c j t Hinv Hj Hrem) as (i & c1 & Hstep).
    destruct (IH (fuel c1) (step_fuel _ _ _ Hstep) c1 eq_refl
                 (step_inv _ _ _ Hstep Hinv)) as (sched & c' & Hrun & Hfin).
    exists (i :: sched), c'. simpl. rewrite Hstep. by split.
Qed.

(** A step neither adds nor drops a call: what a thread has left plus what
    it has finished stays what it was started with. *)
Lemma step_calls i c c' :
  step i c = Some c' → calls <$> threads c' = calls <$> threads c.
Proof.
  intros Hstep. unstep Hstep t n; simpl; rewrite list_fmap_insert;
    apply list_insert_id; rewrite list_lookup_fmap, Ht; simpl;
    unfold calls; simpl; rewrite ?Hn; f_equal; lia.
Qed.

Lemma run_calls sched c c' :
  run sched c = Some c' → calls <$> threads c' = calls <$> threads c.
Proof.
  revert c. induction sched as [|i sched IH]; intros c; simpl.
  - by intros [= <-].
  - destruct (step i c) as [c1|] eqn:Hstep; [|done].
    intros Hrun. rewrite (IH _ Hrun). by apply (step_calls i).
Qed.

Lemma spawn_calls ns : calls <$> threads (spawn ns) = ns.
Proof.
  unfold spawn. simpl.
  induction ns as [|n ns IH]; [done|].
  rewrite !fmap_cons, IH. unfold calls. simpl. f_equal. lia.
Qed.

(** The gate is one-way under every interleaving as well. *)
Lemma step_gate i c c' :
  step i c = Some c' →
  initInstanceFlag (shared c) = Initialized →
  initInstanceFlag (shared c') = Initialized.
Proof. intros Hstep Hflag. unstep Hstep t n; simpl; congruence. Qed.

(** With a single thread the steps of one call add up to [getInstance] of
    Part 2: the same static members and heap afterwards, the same
    reference returned. *)
Lemma lone_thread_getInstance p n a :
  (getInstance p).1 = Some a →
  ∃ sched,
    run sched {| shared := p; active := false;
                 threads := [mkThread (S n) AtCallOnce []] |} =
    Some {| shared := (getInstance p).2; active := false;
            threads := [mkThread n AtCallOnce [a]] |}.
Proof.
  unfold getInstance, call_once. simpl.
  destruct (initInstanceFlag p) eqn:Hflag; simpl.
  - intros [= <-]. exists [0; 0; 0; 0].
    unfold run, step. simpl. by rewrite Hflag.
  - intros Hinst. exists [0; 0].
    unfold run, step. simpl. rewrite Hflag. simpl. by rewrite Hinst.
Qed.

End ThreadFacts.

Section ThreadClaims.
Import CacheManager Process Threads.

(** C2: take any number of threads, each making any number of calls of
    [getInstance], and any interleaving of their steps. At every point of
    the run at most one [CacheManager] has been constructed; every reference
    a call has returned is the address in [instance] of the one object
    constructed, so any two of them are the same; a [put] through one of
    them is seen by a [get] through any other; and the run can always be
    carried on until every thread has had all its calls return. *)
Theorem one_store_for_all_threads ns sched c :
  run sched (spawn ns) = Some c →
  constructions (shared c) ≤ 1 ∧
  (∀ h, h ∈ handles c →
        constructions (shared c) = 1 ∧ instance (shared c) = Some h) ∧
  (∀ h1 h2, h1 ∈ handles c → h2 ∈ handles c →
     h1 = h2 ∧
     ∀ k v, k ≠ ""%string →
       ∃ p1, call h1 (put k v) (shared c) = Some (Returned (), p1) ∧
             fst <$> call h2 (get k) p1 = Some (Returned v)) ∧
  (∃ more c',
     run (sched ++ more) (spawn ns) = Some c' ∧
     ∀ j n, ns !! j = Some n →
       ∃ t, threads c' !! j = Some t ∧ remaining t = 0 ∧ length (got t) = n).
Proof.
  intros Hrun.
  pose proof (run_inv _ _ _ Hrun (inv_spawn ns)) as Hinv.
  destruct (inv_one_store c Hinv) as [Hle Hh].
  split; [exact Hle|]. split; [|split].
  - intros h [Hs ->]%Hh. by rewrite Hs.
  - intros h1 h2 [Hs ->]%Hh [_ ->]%Hh. split; [done|].
    intros k v Hk. rewrite Hs. unfold call. simpl.
    rewrite (put_ok k v ∅ Hk). simpl. eexists. split; [done|].
    unfold call. simpl.
    by rewrite (get_hit k v _ Hk (lookup_insert_eq _ _ _)).
  - destruct (inv_completes c Hinv) as (more & c' & Hmore & Hfin).
    exists more, c'. split.
    + by rewrite run_app, Hrun.
    + intros j n Hj.
      pose proof (run_calls _ _ _ Hmore) as Hc.
      rewrite (run_calls _ _ _ Hrun), spawn_calls in Hc.
      rewrite <- Hc, list_lookup_fmap in Hj.
      apply fmap_Some in Hj as (t & Ht & ->).
      exists t. split; [done|].
      pose proof (proj1 (Forall_lookup _ _) Hfin _ _ Ht) as Hrem.
      simpl in Hrem. unfold calls. rewrite Hrem. by split.
Qed.

Lemma one_store_for_all_threads_witness :
  ∃ c, run [0; 0; 0; 1; 0; 1; 0; 0] (spawn [2; 1]) = Some c ∧
  handles c = [0; 0; 0] ∧
  constructions (shared c) ≤ 1 ∧
  (∀ h, h ∈ handles c →
        constructions (shared c) = 1 ∧ instance (shared c) = Some h) ∧
  (∀ h1 h2, h1 ∈ handles c → h2 ∈ handles c →
     h1 = h2 ∧
     ∀ k v, k ≠ ""%string →
       ∃ p1, call h1 (put k v) (shared c) = Some (Returned (), p1) ∧
             fst <$> call h2 (get k) p1 = Some (Returned v)) ∧
  (∃ more c',
     run ([0; 0; 0; 1; 0; 1; 0; 0] ++ more) (spawn [2; 1]) = Some c' ∧
     ∀ j n, [2; 1] !! j = Some n →
       ∃ t, threads c' !! j = Some t ∧ remaining t = 0 ∧ length (got t) = n).
Proof.
  eexists. split; [reflexivity|]. split; [reflexivity|].
  apply (one_store_for_all_threads [2; 1] [0; 0; 0; 1; 0; 1; 0; 0]).
  reflexivity.
Defined.

End ThreadClaims.

(** * Further properties of the member functions *)

Section StoreExtraFacts.
Import CacheManager.
#[local] Open Scope string_scope.

Implicit Types (c : cache) (k v : string) (kvs : list (string * string)).

Lemma string_app_nil_r (s : string) : s +:+ "" = s.
Proof.
  induction s as [|a s IH]; [done|].
  change (String a (s +:+ "") = String a s). by rewrite IH.
Qed.

Lemma string_app_assoc (s1 s2 s3 : string) :
  (s1 +:+ s2) +:+ s3 = s1 +:+ (s2 +:+ s3).
Proof.
  induction s1 as [|a s1 IH]; [done|].
  change (String a ((s1 +:+ s2) +:+ s3) = String a (s1 +:+ (s2 +:+ s3))).
  by rewrite IH.
Qed.

Lemma puts_cons k v kvs c :
  puts ((k, v) :: kvs) c = puts kvs (if empty k then c else <[k := v]> c).
Proof. simpl. unfold put, store_after. by destruct (empty k). Qed.

Lemma puts_other kvs c k : k ∉ kvs.*1 → puts kvs c !! k = c !! k.
Proof.
  revert c. induction kvs as [|[k' v'] kvs IH]; intros c Hk; [done|].
  rewrite fmap_cons in Hk. apply not_elem_of_cons in Hk as [Hne Hk].
  rewrite puts_cons, (IH _ Hk). destruct (empty k'); [done|].
  by apply lookup_insert_ne.
Qed.

Lemma puts_dom kvs c :
  dom (puts kvs c) = list_to_set (stored_keys kvs) ∪ dom c.
Proof.
  unfold stored_keys. revert c.
  induction kvs as [|[k v] kvs IH]; intros c.
  - simpl. by rewrite (left_id_L ∅ (∪)).
  - rewrite puts_cons, IH, fmap_cons, filter_cons. simpl.
    destruct (empty k) eqn:Hk.
    + rewrite decide_False by done. done.
    + rewrite decide_True by done. rewrite dom_insert_L, list_to_set_cons.
      by rewrite (assoc_L (∪)), (comm_L (∪) _ {[k]}).
Qed.

Lemma puts_no_empty_key kvs c : c !! "" = None → puts kvs c !! "" = None.
Proof.
  revert c. induction kvs as [|[k v] kvs IH]; intros c Hc; [done|].
  rewrite puts_cons. apply IH. destruct (empty k) eqn:Hk; [done|].
  rewrite lookup_insert_ne; [done|]. intros ->. done.
Qed.

End StoreExtraFacts.

Section StoreExtras.
Import CacheManager.
#[local] Open Scope string_scope.

Implicit Types (c : cache) (k v : string) (kvs : list (string * string)).

(** X1: two [put] calls on different keys can be swapped: the store they
    leave is the same in either order (an empty key included, whose [put]
    only throws). *)
Theorem put_distinct_keys_commute k1 v1 k2 v2 c :
  k1 ≠ k2 →
  store_after (put k2 v2 (store_after (put k1 v1 c))) =
  store_after (put k1 v1 (store_after (put k2 v2 c))).
Proof.
  intros Hne. unfold put, store_after.
  destruct (empty k1), (empty k2); simpl; try done.
  by apply insert_insert_ne.
Qed.

Lemma put_distinct_keys_commute_witness :
  store_after (put "b" "2" (store_after (put "a" "1" ∅))) =
  store_after (put "a" "1" (store_after (put "b" "2" ∅))).
Proof. apply (put_distinct_keys_commute "a" "1" "b" "2" ∅). discriminate. Defined.

(** X2: in a run of [put] calls the last call on a key decides: [get k]
    afterwards returns the value of the last [put] on [k], and when no call
    of the run was on [k] it returns what it returned before the run. *)
Theorem last_put_wins kvs k c :
  k ≠ "" →
  (k ∉ kvs.*1 → result_of (get k (puts kvs c)) = result_of (get k c)) ∧
  (∀ kvs1 v kvs2, kvs = (kvs1 ++ (k, v) :: kvs2)%list → k ∉ kvs2.*1 →
     result_of (get k (puts kvs c)) = Returned v).
Proof.
  intros Hk. split.
  - intros Hnot. unfold get. apply empty_false in Hk as ->.
    rewrite (puts_other _ _ _ Hnot). by destruct (c !! k).
  - intros kvs1 v kvs2 -> Hnot.
    rewrite puts_app, puts_cons. apply empty_false in Hk as Hk'. rewrite Hk'.
    rewrite (get_hit k v); [done|done|].
    by rewrite (puts_other _ _ _ Hnot), lookup_insert_eq.
Qed.

Lemma last_put_wins_witness :
  result_of (get "a" (puts [("a", "1"); ("b", "2"); ("a", "3"); ("b", "4")] ∅)) =
  Returned "3".
Proof.
  destruct (last_put_wins [("a", "1"); ("b", "2"); ("a", "3"); ("b", "4")]
              "a" ∅ ltac:(discriminate)) as [_ H].
  apply (H [("a", "1"); ("b", "2")] "3" [("b", "4")]); [reflexivity|].
  simpl. intros [E|E%elem_of_nil]%elem_of_cons; [discriminate E|done].
Defined.

(** X3: after a run of [put] calls on an empty store (a new or a cleared
    one), [size] returns the number of different non-empty keys the run
    used; repeated keys and rejected empty keys do not count. *)
Theorem size_counts_distinct_keys kvs :
  result_of (size (puts kvs ∅)) =
  Returned (length (remove_dups (stored_keys kvs))).
Proof.
  unfold size, result_of. simpl. f_equal.
  rewrite <- size_dom, puts_dom, dom_empty_L, (right_id_L ∅ (∪)).
  rewrite <- (size_list_to_set (C := gset string) (remove_dups _))
    by apply NoDup_remove_dups.
  f_equal. apply set_eq. intros x.
  by rewrite !elem_of_list_to_set, elem_of_remove_dups.
Qed.

(** X4: [print] leaves the store as it is. On an empty store, so also right
    after [clear], it writes the heading and the line [(empty)]; on a store
    with a single pair it writes the heading and that pair's line. *)
Theorem print_listing c k v :
  store_after (print c) = c ∧
  result_of (print ∅) =
    Returned ("Cache Contents:" +:+ endl +:+ "  (empty)" +:+ endl) ∧
  result_of (print (store_after (clear c))) = result_of (print ∅) ∧
  result_of (print {[k := v]}) =
    Returned ("Cache Contents:" +:+ endl +:+
              "  Key: " +:+ k +:+ ", Value: " +:+ v +:+ endl).
Proof.
  split; [done|]. split; [done|]. split; [done|].
  unfold print, result_of. simpl.
  rewrite decide_False by apply insert_non_empty.
  rewrite map_to_list_singleton. simpl. unfold print_entry. simpl.
  by rewrite string_app_nil_r.
Qed.

End StoreExtras.

(** * Further properties of the accessor, one thread of control *)

Section ProcessExtraFacts.
Import CacheManager Process.

Lemma call_Some {A} h (m : method A) p r :
  call h m p = Some r →
  ∃ c, heap p !! h = Some c ∧ r.1 = (m c).1 ∧
       r.2 = mkProcess (instance p) (initInstanceFlag p) (<[h := (m c).2]> (heap p)).
Proof.
  unfold call. destruct (heap p !! h) as [c|]; [|done].
  intros [= <-]. by exists c.
Qed.

(** A member function never stores anything under the empty key. *)
Lemma exec_call_no_empty_key o p q :
  exec o p = Some q →
  Forall (λ c : cache, c !! ""%string = None) (heap p) →
  Forall (λ c : cache, c !! ""%string = None) (heap q).
Proof.
  intros Hexec Hall. destruct o; unfold exec in Hexec.
  1: { injection Hexec as <-. unfold getInstance, call_once. simpl.
       destruct (initInstanceFlag p); [|done]. simpl.
       apply Forall_app. split; [done|]. by repeat constructor. }
  all: apply fmap_Some in Hexec as (r & (c & Hc & _ & Hr)%call_Some & ->);
    rewrite Hr; simpl; apply Forall_insert; [done|];
    pose proof (proj1 (Forall_lookup _ _) Hall _ _ Hc) as Hce; simpl in Hce.
  - unfold put. destruct (empty key) eqn:Hk; simpl; [done|].
    rewrite lookup_insert_ne; [done|]. intros ->. done.
  - unfold get. destruct (empty key); [done|]. by destruct (c !! key).
  - done.
  - done.
  - done.
Qed.

(** After [start] a state is either still [start], or the singleton is in
    place: flag set, [instance] pointing at the one object constructed. *)
Lemma exec_settled o p q :
  exec o p = Some q →
  p = start ∨
    (initInstanceFlag p = Initialized ∧ instance p = Some 0 ∧
     length (heap p) = 1) →
  initInstanceFlag q = Initialized ∧ instance q = Some 0 ∧
  length (heap q) = 1.
Proof.
  intros Hexec Hp. destruct o; unfold exec in Hexec.
  1: { injection Hexec as <-. unfold getInstance, call_once. simpl.
       destruct Hp as [->|(Hf & Hi & Hl)]; [done|]. by rewrite Hf. }
  all: apply fmap_Some in Hexec as (r & Hr & ->);
    destruct Hp as [->|(Hf & Hi & Hl)]; [done|];
    apply call_keeps_statics in Hr as (-> & -> & ->); done.
Qed.

Lemma trace_invariant (P : process → Prop) ops p ps :
  (∀ o p q, exec o p = Some q → P p → P q) →
  trace ops p = Some ps → P p → Forall P ps.
Proof.
  intros Hstep. revert p ps. induction ops as [|o rest IH]; intros p ps; simpl.
  - intros [= <-] Hp. by repeat constructor.
  - destruct (exec o p) as [q|] eqn:Ho; [|done].
    destruct (trace rest q) as [ps'|] eqn:E; [|done].
    intros [= <-] Hp. constructor; [done|]. eapply IH; eauto.
Qed.

End ProcessExtraFacts.

Section ProcessExtras.
Import CacheManager Process.

(** X5: along any sequence of [getInstance] and member calls from the
    program's start, at most one [CacheManager] is ever constructed. While
    the flag is not set the program is still in its start state; once it is
    set there is exactly one object, and [getInstance] returns the
    reference to it, never null, and changes nothing. *)
Theorem one_store_in_sequence ops ps p :
  trace ops start = Some ps → p ∈ ps →
  constructions p ≤ 1 ∧
  match initInstanceFlag p with
  | Uninitialized => p = start
  | Initialized => constructions p = 1 ∧ getInstance p = (Some 0, p)
  end.
Proof.
  intros Htr Hin.
  assert (Hinv : Forall (λ p, p = start ∨
             (initInstanceFlag p = Initialized ∧ instance p = Some 0 ∧
              length (heap p) = 1)) ps).
  { apply (trace_invariant _ ops start); [|done|by left].
    intros o p1 q Hexec Hp1. right. by apply (exec_settled o p1). }
  destruct (proj1 (Forall_forall _ _) Hinv _ Hin) as [->|(Hf & Hi & Hl)].
  - simpl. split; [unfold constructions; simpl; lia|done].
  - unfold constructions. rewrite Hf, Hl. split; [lia|]. split; [done|].
    unfold getInstance, call_once. by rewrite Hf, Hi.
Qed.

Lemma one_store_in_sequence_witness :
  ∃ ps p, trace [GetInstance; Put 0 "user:123" "Alice Smith"; GetInstance] start = Some ps ∧
    ps !! 3 = Some p ∧
    constructions p ≤ 1 ∧
    match initInstanceFlag p with
    | Uninitialized => p = start
    | Initialized => constructions p = 1 ∧ getInstance p = (Some 0, p)
    end.
Proof.
  eexists _, _. split; [reflexivity|]. split; [reflexivity|].
  apply (one_store_in_sequence
           [GetInstance; Put 0 "user:123" "Alice Smith"; GetInstance] _ _ eq_refl).
  do 3 apply list_elem_of_further. apply list_elem_of_here.
Defined.

(** X6: no store ever holds the empty string as a key: along any sequence
    of operations from the program's start, every map on the heap has no
    binding for [""]. *)
Theorem empty_key_never_stored ops ps p c :
  trace ops start = Some ps → p ∈ ps → c ∈ heap p → c !! ""%string = None.
Proof.
  intros Htr Hp Hc.
  assert (Hinv : Forall (λ p, Forall (λ c : cache, c !! ""%string = None) (heap p)) ps).
  { apply (trace_invariant _ ops start); [|done|by constructor].
    intros o p1 q. apply exec_call_no_empty_key. }
  pose proof (proj1 (Forall_forall _ _) Hinv _ Hp) as Hheap. simpl in Hheap.
  by apply (proj1 (Forall_forall _ _) Hheap).
Qed.

Lemma empty_key_never_stored_witness :
  ∃ ps p c, trace [GetInstance; Put 0 "" "x"; Put 0 "a" "1"] start = Some ps ∧
    ps !! 3 = Some p ∧ heap p !! 0 = Some c ∧
    c !! "a"%string = Some "1"%string ∧ c !! ""%string = None.
Proof.
  eexists _, _, _. split; [reflexivity|]. split; [reflexivity|].
  split; [reflexivity|]. split; [reflexivity|].
  eapply (empty_key_never_stored [GetInstance; Put 0 "" "x"; Put 0 "a" "1"]).
  - reflexivity.
  - do 3 apply list_elem_of_further. apply list_elem_of_here.
  - apply list_elem_of_here.
Defined.

(** X7: [get], [size] and [print] through any reference change nothing:
    neither the store they are called on, nor any other object, nor the
    static members. *)
Theorem reads_change_nothing h k p q :
  exec (Get h k) p = Some q ∨ exec (Size h) p = Some q ∨
  exec (Print h) p = Some q →
  q = p.
Proof.
  assert (Hid : ∀ {A} (m : method A),
             (∀ c, (m c).2 = c) → ∀ r, call h m p = Some r → r.2 = p).
  { intros A m Hm r (c & Hc & _ & ->)%call_Some. rewrite Hm.
    destruct p as [i f hp]. simpl in *. f_equal. by apply list_insert_id. }
  intros [H|[H|H]]; apply fmap_Some in H as (r & Hr & ->);
    apply (Hid _ _) in Hr; try done.
  intros c. unfold get. destruct (empty k); [done|]. by destruct (c !! k).
Qed.

Lemma reads_change_nothing_witness :
  ∃ p, exec (Put 0 "a" "1") (getInstance start).2 = Some p ∧
       exec (Get 0 "a") p = Some p.
Proof.
  eexists. split; [reflexivity|].
  match goal with |- exec _ ?p = _ =>
    destruct (exec (Get 0 "a") p) as [q|] eqn:E; [|discriminate E];
    f_equal; apply (reads_change_nothing 0 "a"%string p q); by left
  end.
Defined.

(** X8: what is stored through the reference of one [getInstance] call is
    still there after another: the second call returns the same reference,
    leaves the whole state as it is, and [get] through it returns the value
    that was put. *)
Theorem getInstance_again_keeps_data p h p1 k v r p2 :
  getInstance p = (Some h, p1) →
  k ≠ ""%string →
  call h (put k v) p1 = Some (r, p2) →
  r = Returned () ∧
  getInstance p2 = (Some h, p2) ∧
  fst <$> call h (get k) p2 = Some (Returned v).
Proof.
  unfold getInstance. intros [= Hh <-] Hk Hcall.
  assert (initInstanceFlag (call_once initSingleton p) = Initialized) as Hflag.
  { unfold call_once. by destruct (initInstanceFlag p) eqn:E. }
  apply call_Some in Hcall as (c & Hc & Hr & Hp2). simpl in Hr, Hp2.
  rewrite (put_ok k v c Hk) in Hr, Hp2. simpl in Hr, Hp2. subst r p2.
  split; [done|]. split.
  - unfold call_once at 1. simpl. rewrite Hflag. simpl. by rewrite Hh.
  - unfold call. simpl.
    rewrite list_lookup_insert_eq by (by eapply lookup_lt_Some).
    simpl. by rewrite (get_hit k v _ Hk (lookup_insert_eq _ _ _)).
Qed.

Lemma getInstance_again_keeps_data_witness :
  ∃ p1 p2,
    getInstance start = (Some 0, p1) ∧
    call 0 (put "user:123"%string "Alice Smith"%string) p1 = Some (Returned (), p2) ∧
    getInstance p2 = (Some 0, p2) ∧
    fst <$> call 0 (get "user:123"%string) p2 = Some (Returned "Alice Smith"%string).
Proof.
  eexists _, _. split; [reflexivity|]. split; [reflexivity|].
  apply (getInstance_again_keeps_data start 0 _ "user:123"%string "Alice Smith"%string
           (Returned ()) _ eq_refl); [discriminate|reflexivity].
Defined.

End ProcessExtras.

(** * Further properties of concurrent calls of the accessor *)

Section ThreadExtras.
Import CacheManager Process Threads.

(** X9: under any interleaving of any number of threads, no thread sees a
    half-made singleton. Whenever the flag is set, [instance] points at the
    constructed object; a thread that has left [call_once] and is about to
    dereference [instance] finds the flag set and [instance] not null; and
    at most one thread at a time is inside the active execution of
    [initSingleton]. *)
Theorem no_half_made_singleton ns sched c :
  run sched (spawn ns) = Some c →
  (initInstanceFlag (shared c) = Initialized →
   instance (shared c) = Some 0 ∧ heap (shared c) = [∅]) ∧
  (∀ j t, threads c !! j = Some t → at_pc t = AtReturn →
     initInstanceFlag (shared c) = Initialized ∧ instance (shared c) = Some 0) ∧
  (∀ i j ti tj,
     threads c !! i = Some ti → threads c !! j = Some tj →
     at_pc ti = InInitSingleton ∨ at_pc ti = LeavingCallOnce →
     at_pc tj = InInitSingleton ∨ at_pc tj = LeavingCallOnce →
     i = j).
Proof.
  intros Hrun.
  destruct (run_inv _ _ _ Hrun (inv_spawn ns)) as (ph & Hsh & Hth).
  split; [|split].
  - intros Hflag. destruct ph; simpl in Hsh; destruct Hsh as [Hs _];
      rewrite Hs in Hflag |- *; done.
  - intros j t Hj Hpc. specialize (Hth _ _ Hj).
    destruct ph as [|i|i|]; simpl in Hsh, Hth.
    + destruct Hth. congruence.
    + destruct Hth as [_ Hok]. destruct (decide (j = i));
        [destruct Hok|]; congruence.
    + destruct Hth as [_ Hok]. destruct (decide (j = i));
        [destruct Hok|]; congruence.
    + destruct Hsh as [-> _]. done.
  - intros i j ti tj Hi Hj Hpi Hpj.
    pose proof (Hth _ _ Hi) as Hoi. pose proof (Hth _ _ Hj) as Hoj.
    destruct ph as [|i0|i0|]; simpl in Hoi, Hoj.
    + destruct Hoi as [_ Hoi]. destruct Hpi; congruence.
    + destruct Hoi as [_ Hoi], Hoj as [_ Hoj].
      destruct (decide (i = i0)) as [->|]; [|destruct Hpi; congruence].
      destruct (decide (j = i0)) as [->|]; [done|destruct Hpj; congruence].
    + destruct Hoi as [_ Hoi], Hoj as [_ Hoj].
      destruct (decide (i = i0)) as [->|]; [|destruct Hpi; congruence].
      destruct (decide (j = i0)) as [->|]; [done|destruct Hpj; congruence].
    + destruct Hoi as [_ [Hoi|[Hoi _]]]; destruct Hpi; congruence.
Qed.

Lemma no_half_made_singleton_witness :
  ∃ c, run [1; 1; 1; 0] (spawn [1; 2]) = Some c ∧
  (initInstanceFlag (shared c) = Initialized →
   instance (shared c) = Some 0 ∧ heap (shared c) = [∅]) ∧
  (∀ j t, threads c !! j = Some t → at_pc t = AtReturn →
     initInstanceFlag (shared c) = Initialized ∧ instance (shared c) = Some 0) ∧
  (∀ i j ti tj,
     threads c !! i = Some ti → threads c !! j = Some tj →
     at_pc ti = InInitSingleton ∨ at_pc ti = LeavingCallOnce →
     at_pc tj = InInitSingleton ∨ at_pc tj = LeavingCallOnce →
     i = j).
Proof.
  eexists. split; [reflexivity|].
  apply (no_half_made_singleton [1; 2] [1; 1; 1; 0]). reflexivity.
Defined.

End ThreadExtras.

(** * Properties of HttpRequest and its Builder *)

Section BuilderFacts.
Import CacheManager HttpRequest.
#[local] Open Scope string_scope.

Implicit Types (b : Builder.Builder) (ls : list Builder.link) (k v : string).

Lemma chain_cons l ls b :
  Builder.chain (l :: ls) b = Builder.chain ls (Builder.apply_link l b).
Proof. done. Qed.

Lemma chain_app ls1 ls2 b :
  Builder.chain (ls1 ++ ls2)%list b = Builder.chain ls2 (Builder.chain ls1 b).
Proof. apply foldl_app. Qed.

Lemma chain_keeps_target ls b :
  Builder.url (Builder.chain ls b) = Builder.url b ∧
  Builder.method (Builder.chain ls b) = Builder.method b.
Proof.
  revert b. induction ls as [|l ls IH]; intros b; [done|].
  rewrite chain_cons. destruct (IH (Builder.apply_link l b)) as [-> ->].
  by destruct l.
Qed.

Lemma chain_headers_other ls b k :
  (∀ v, Builder.AddHeader k v ∉ ls) →
  Builder.headers (Builder.chain ls b) !! k = Builder.headers b !! k.
Proof.
  revert b. induction ls as [|l ls IH]; intros b Hno; [done|].
  rewrite chain_cons, IH.
  - destruct l as [k' v'| |]; simpl; try done.
    apply lookup_insert_ne. intros ->. apply (Hno v'), list_elem_of_here.
  - intros v Hin. apply (Hno v). by apply list_elem_of_further.
Qed.

Lemma chain_queryParams_other ls b k :
  (∀ v, Builder.AddQueryParam k v ∉ ls) →
  Builder.queryParams (Builder.chain ls b) !! k = Builder.queryParams b !! k.
Proof.
  revert b. induction ls as [|l ls IH]; intros b Hno; [done|].
  rewrite chain_cons, IH.
  - destruct l as [|k' v'|]; simpl; try done.
    apply lookup_insert_ne. intros ->. apply (Hno v'), list_elem_of_here.
  - intros v Hin. apply (Hno v). by apply list_elem_of_further.
Qed.

Lemma chain_body_other ls b :
  (∀ s, Builder.SetBody s ∉ ls) →
  Builder.body (Builder.chain ls b) = Builder.body b.
Proof.
  revert b. induction ls as [|l ls IH]; intros b Hno; [done|].
  rewrite chain_cons, IH.
  - destruct l as [| |s']; simpl; try done.
    exfalso. apply (Hno s'), list_elem_of_here.
  - intros s Hin. apply (Hno s). by apply list_elem_of_further.
Qed.

(** The loop with the [first] flag writes the pairs joined by ["&"]. *)
Lemma query_loop_join first p ps :
  query_loop first (p :: ps) =
  (if first then "" else "&") +:+
  String.concat "&" ((λ p, p.1 +:+ "=" +:+ p.2) <$> p :: ps).
Proof.
  revert first p. induction ps as [|q ps IH]; intros first p.
  - simpl. by rewrite string_app_nil_r.
  - change (query_loop first (p :: q :: ps))
      with ((if first then "" else "&") +:+ p.1 +:+ "=" +:+ p.2 +:+
            query_loop false (q :: ps)).
    rewrite (IH false q).
    change (String.concat "&" ((λ p, p.1 +:+ "=" +:+ p.2) <$> p :: q :: ps))
      with ((p.1 +:+ "=" +:+ p.2) +:+ "&" +:+
            String.concat "&" ((λ p, p.1 +:+ "=" +:+ p.2) <$> q :: ps)).
    by rewrite !string_app_assoc.
Qed.

Lemma key_le_total : Total key_le.
Proof. intros a b. unfold key_le. apply (total String.le). Qed.

Lemma entries_Permutation (m : gmap string string) : entries m ≡ₚ map_to_list m.
Proof. apply merge_sort_Permutation. Qed.

Lemma entries_empty : entries ∅ = [].
Proof. unfold entries. by rewrite map_to_list_empty. Qed.

Lemma entries_nil_inv (m : gmap string string) : entries m = [] → m = ∅.
Proof.
  intros E. apply map_to_list_empty_iff, Permutation_nil_r.
  by rewrite <- E, entries_Permutation.
Qed.

(** Two pairs with different keys are visited in the order of their keys. *)
Lemma entries_pair k1 v1 k2 v2 :
  k1 ≠ k2 → String.le k1 k2 →
  entries (<[k1 := v1]> {[k2 := v2]}) = [(k1, v1); (k2, v2)].
Proof.
  intros Hne Hle.
  assert (Hperm : entries (<[k1 := v1]> {[k2 := v2]}) ≡ₚ [(k1, v1); (k2, v2)]).
  { rewrite entries_Permutation, map_to_list_insert
      by by rewrite lookup_singleton_ne.
    by rewrite map_to_list_singleton. }
  assert (Hsorted : Sorted key_le (entries (<[k1 := v1]> {[k2 := v2]}))).
  { apply (@Sorted_merge_sort _ key_le _ key_le_total). }
  symmetry in Hperm. apply Permutation_length_2_inv in Hperm as [->| Hswap];
    [done|].
  rewrite Hswap in Hsorted.
  apply Sorted_inv in Hsorted as [_ Hhd]. apply HdRel_inv in Hhd.
  unfold key_le in Hhd. simpl in Hhd.
  destruct Hne. by apply (anti_symm String.le).
Qed.

Lemma new_Returned u m b :
  Builder.new u m = Returned b →
  b = Builder.mkBuilder u m ∅ ∅ "" ∧ u ≠ "" ∧ m ≠ "".
Proof.
  unfold Builder.new.
  destruct (empty u) eqn:Hu; [done|]. destruct (empty m) eqn:Hm; [done|].
  intros [= <-]. by apply empty_false in Hu, Hm.
Qed.

Lemma addHeader_commute b k1 v1 k2 v2 :
  k1 ≠ k2 →
  Builder.addHeader k2 v2 (Builder.addHeader k1 v1 b) =
  Builder.addHeader k1 v1 (Builder.addHeader k2 v2 b).
Proof.
  intros Hne. unfold Builder.addHeader. simpl. f_equal.
  by apply insert_insert_ne.
Qed.

Lemma addQueryParam_commute b k1 v1 k2 v2 :
  k1 ≠ k2 →
  Builder.addQueryParam k2 v2 (Builder.addQueryParam k1 v1 b) =
  Builder.addQueryParam k1 v1 (Builder.addQueryParam k2 v2 b).
Proof.
  intros Hne. unfold Builder.addQueryParam. simpl. f_equal.
  by apply insert_insert_ne.
Qed.

End BuilderFacts.

Section BuilderExtras.
Import CacheManager HttpRequest.
#[local] Open Scope string_scope.

Implicit Types (b : Builder.Builder) (ls : list Builder.link) (k v : string).

(** X10: the [Builder] constructor throws exactly when the URL or the
    method is empty, and an empty URL is reported first. A builder it
    returns starts with no headers, parameters or body, and whatever chain
    of [addHeader], [addQueryParam] and [setBody] calls follows, the request
    built has the URL and method given to the constructor, both
    non-empty. *)
Theorem built_request_has_target u m :
  (threw (Builder.new u m) = true ↔ u = "" ∨ m = "") ∧
  (u = "" → Builder.new u m = Thrown (invalid_argument "URL is Required")) ∧
  (∀ b, Builder.new u m = Returned b →
     Builder.build b = mkHttpRequest u m ∅ ∅ "" ∧
     ∀ ls, url (Builder.build (Builder.chain ls b)) = u ∧
           method (Builder.build (Builder.chain ls b)) = m ∧
           u ≠ "" ∧ m ≠ "").
Proof.
  unfold Builder.new.
  destruct (empty u) eqn:Hu; [|destruct (empty m) eqn:Hm]; simpl.
  - apply empty_true in Hu as ->. split; [tauto|]. split; [done|]. by intros b.
  - apply empty_true in Hm as ->. apply empty_false in Hu.
    split; [tauto|]. split; [done|]. by intros b.
  - apply empty_false in Hu, Hm. split; [|split; [done|]].
    + split; [done|]. intros [?|?]; done.
    + intros b [= <-]. split; [done|]. intros ls.
      destruct (chain_keeps_target ls (Builder.mkBuilder u m ∅ ∅ "")) as [Hurl Hmeth].
      unfold Builder.build. simpl. by rewrite Hurl, Hmeth.
Qed.

Lemma built_request_has_target_witness :
  ∃ b, Builder.new "https://api.example.com/users" "GET" = Returned b ∧
    url (Builder.build (Builder.chain [Builder.AddQueryParam "id" "123"] b)) =
      "https://api.example.com/users" ∧
    method (Builder.build (Builder.chain [Builder.AddQueryParam "id" "123"] b)) =
      "GET".
Proof.
  eexists. split; [reflexivity|].
  destruct (built_request_has_target "https://api.example.com/users" "GET")
    as (_ & _ & H).
  destruct (H _ eq_refl) as [_ H'].
  destruct (H' [Builder.AddQueryParam "id" "123"]) as (Hu & Hm & _).
  by split.
Defined.

(** X11: in a chain of builder calls the last call on a header key, on a
    parameter key, or of [setBody] decides what the built request holds;
    earlier calls on the same key are overwritten, not duplicated. *)
Theorem last_link_wins ls1 ls2 b k v :
  ((∀ v', Builder.AddHeader k v' ∉ ls2) →
   headers (Builder.build
              (Builder.chain (ls1 ++ Builder.AddHeader k v :: ls2)%list b)) !! k
   = Some v) ∧
  ((∀ v', Builder.AddQueryParam k v' ∉ ls2) →
   queryParams (Builder.build
              (Builder.chain (ls1 ++ Builder.AddQueryParam k v :: ls2)%list b)) !! k
   = Some v) ∧
  ((∀ s, Builder.SetBody s ∉ ls2) →
   body (Builder.build
           (Builder.chain (ls1 ++ Builder.SetBody v :: ls2)%list b)) = v).
Proof.
  split; [|split]; intros Hno; rewrite chain_app, chain_cons;
    unfold Builder.build; simpl.
  - rewrite (chain_headers_other _ _ _ Hno). simpl. apply lookup_insert_eq.
  - rewrite (chain_queryParams_other _ _ _ Hno). simpl. apply lookup_insert_eq.
  - by rewrite (chain_body_other _ _ Hno).
Qed.

Lemma last_link_wins_witness :
  headers (Builder.build
    (Builder.chain [Builder.AddHeader "Accept" "text/html";
                    Builder.AddHeader "Accept" "application/json";
                    Builder.SetBody "x"]
                   (Builder.mkBuilder "u" "GET" ∅ ∅ ""))) !! "Accept"
  = Some "application/json".
Proof.
  apply (last_link_wins [Builder.AddHeader "Accept" "text/html"]
           [Builder.SetBody "x"] (Builder.mkBuilder "u" "GET" ∅ ∅ "")
           "Accept" "application/json").
  intros v' [E|E%elem_of_nil]%elem_of_cons; [discriminate E|done].
Defined.

(** X12: the request built, and so its text, does not depend on the order
    in which two different headers, two different parameters, or a header
    and a parameter are added. *)
Theorem build_order_irrelevant b k1 v1 k2 v2 :
  k1 ≠ k2 →
  Builder.build (Builder.addHeader k2 v2 (Builder.addHeader k1 v1 b)) =
  Builder.build (Builder.addHeader k1 v1 (Builder.addHeader k2 v2 b)) ∧
  Builder.build (Builder.addQueryParam k2 v2 (Builder.addQueryParam k1 v1 b)) =
  Builder.build (Builder.addQueryParam k1 v1 (Builder.addQueryParam k2 v2 b)) ∧
  toString (Builder.build (Builder.addHeader k2 v2 (Builder.addHeader k1 v1 b))) =
  toString (Builder.build (Builder.addHeader k1 v1 (Builder.addHeader k2 v2 b))) ∧
  toString (Builder.build (Builder.addQueryParam k2 v2 (Builder.addQueryParam k1 v1 b))) =
  toString (Builder.build (Builder.addQueryParam k1 v1 (Builder.addQueryParam k2 v2 b))).
Proof.
  intros Hne.
  by rewrite (addHeader_commute b k1 v1 k2 v2 Hne),
             (addQueryParam_commute b k1 v1 k2 v2 Hne).
Qed.

Lemma build_order_irrelevant_witness :
  toString (Builder.build
    (Builder.addHeader "Authorization" "Bearer abc123"
       (Builder.addHeader "Content-Type" "application/json"
          (Builder.mkBuilder "u" "POST" ∅ ∅ "")))) =
  toString (Builder.build
    (Builder.addHeader "Content-Type" "application/json"
       (Builder.addHeader "Authorization" "Bearer abc123"
          (Builder.mkBuilder "u" "POST" ∅ ∅ "")))).
Proof.
  apply (build_order_irrelevant (Builder.mkBuilder "u" "POST" ∅ ∅ "")
           "Content-Type" "application/json" "Authorization" "Bearer abc123").
  discriminate.
Defined.

(** X13: a request with no query parameters, no headers and an empty body
    is rendered as the single line [method url]: no ["?"], no [Headers:]
    and no [Body:] section. This is what a builder gives when nothing is
    chained after its constructor. *)
Theorem toString_bare r :
  queryParams r = ∅ → headers r = ∅ → body r = "" →
  toString r = method r +:+ " " +:+ url r +:+ endl.
Proof.
  intros Hq Hh Hb. unfold toString. rewrite Hq, Hh, Hb. simpl.
  rewrite !decide_True by done.
  change ("" +:+ endl +:+ "" +:+ "") with (endl +:+ "").
  by rewrite string_app_nil_r.
Qed.

Lemma toString_bare_witness :
  ∃ b, Builder.new "https://api.example.com/users" "GET" = Returned b ∧
       toString (Builder.build b) =
       "GET" +:+ " " +:+ "https://api.example.com/users" +:+ endl.
Proof.
  eexists. split; [reflexivity|].
  apply (toString_bare (mkHttpRequest "https://api.example.com/users" "GET" ∅ ∅ ""));
    reflexivity.
Defined.

(** X14: when there are query parameters, [toString] differs from the text
    of the same request without them only by ["?"] and the parameters
    written as [key=value] and joined by ["&"], placed right after the URL:
    no ["&"] before the first or after the last. *)
Theorem toString_query_join r :
  queryParams r ≠ ∅ →
  ∃ tail,
    toString (mkHttpRequest (url r) (method r) (headers r) ∅ (body r)) =
      method r +:+ " " +:+ url r +:+ tail ∧
    toString r =
      method r +:+ " " +:+ url r +:+ "?" +:+
      String.concat "&" ((λ p, p.1 +:+ "=" +:+ p.2) <$> entries (queryParams r)) +:+
      tail.
Proof.
  intros Hne. eexists. unfold toString. simpl.
  rewrite (decide_True (P := (∅ : gmap string string) = ∅)) by done.
  rewrite (decide_False (P := queryParams r = ∅)) by done.
  split; [reflexivity|].
  destruct (entries (queryParams r)) as [|p ps] eqn:E.
  { by apply entries_nil_inv in E. }
  rewrite query_loop_join.
  change ("" +:+ ?x) with x.
  by rewrite !string_app_assoc.
Qed.

Lemma toString_query_join_witness :
  toString (mkHttpRequest "u" "GET" ∅ {["id" := "123"]} "") =
  "GET" +:+ " " +:+ "u" +:+ "?" +:+ "id=123" +:+ endl.
Proof.
  destruct (toString_query_join (mkHttpRequest "u" "GET" ∅ {["id" := "123"]} ""))
    as (tail & Hbare & Hfull).
  { apply insert_non_empty. }
  rewrite Hfull. clear Hfull.
  assert (tail = endl) as ->.
  { vm_compute in Hbare. by injection Hbare as <-. }
  reflexivity.
Defined.

(** X15: two query parameters are written in ascending order of their keys
    (byte-wise comparison), whichever was added first. *)
Theorem two_params_in_key_order u m b k1 v1 k2 v2 :
  Builder.new u m = Returned b →
  k1 ≠ k2 → String.le k1 k2 →
  toString (Builder.build (Builder.addQueryParam k2 v2 (Builder.addQueryParam k1 v1 b))) =
    m +:+ " " +:+ u +:+ "?" +:+ k1 +:+ "=" +:+ v1 +:+ "&" +:+ k2 +:+ "=" +:+ v2 +:+ endl ∧
  toString (Builder.build (Builder.addQueryParam k1 v1 (Builder.addQueryParam k2 v2 b))) =
    m +:+ " " +:+ u +:+ "?" +:+ k1 +:+ "=" +:+ v1 +:+ "&" +:+ k2 +:+ "=" +:+ v2 +:+ endl.
Proof.
  intros Hnew Hne Hle.
  rewrite (addQueryParam_commute b k1 v1 k2 v2 Hne).
  match goal with |- ?P ∧ ?P => enough P by by split end.
  apply new_Returned in Hnew as (-> & _ & _).
  unfold toString, Builder.build. simpl.
  rewrite decide_False by apply insert_non_empty.
  rewrite decide_True by done.
  rewrite insert_empty, (entries_pair k1 v1 k2 v2 Hne Hle). simpl.
  change ("" +:+ ?x) with x.
  by rewrite ?string_app_nil_r, !string_app_assoc.
Qed.

Lemma two_params_in_key_order_witness :
  ∃ b, Builder.new "u" "GET" = Returned b ∧
  toString (Builder.build
    (Builder.addQueryParam "id" "123" (Builder.addQueryParam "version" "1.0" b))) =
  "GET u?id=123&version=1.0" +:+ endl.
Proof.
  eexists. split; [reflexivity|].
  apply (two_params_in_key_order "u" "GET" _ "id" "123" "version" "1.0" eq_refl).
  - discriminate.
  - vm_compute. exact I.
Defined.

End BuilderExtras.

(** * Properties of the payment factory *)

Section FactoryExtras.
Import CacheManager PaymentFactory.
#[local] Open Scope string_scope.

(** X16: [createPayment] returns null exactly for the strings that are
    none of ["creditcard"], ["debitcard"], ["upi"], ["netbanking"], compared
    exactly (no case folding, no trimming); each of the four names gets a
    class of its own, so two modes that give the same object are the same
    string. *)
Theorem createPayment_knows_four_modes mode :
  (createPayment mode = None ↔ mode ∉ modes) ∧
  (∀ mode', mode ∈ modes → createPayment mode = createPayment mode' →
            mode = mode').
Proof.
  unfold createPayment, modes. split.
  - rewrite !not_elem_of_cons.
    repeat match goal with
           | |- context [String.eqb ?a ?b] => destruct (String.eqb_spec a b)
           end; subst; try (split; [done|tauto]).
    split; [|done]. intros _. repeat split; try done. apply not_elem_of_nil.
  - intros mode' Hin.
    repeat (apply elem_of_cons in Hin as [->|Hin]);
      [..|by apply elem_of_nil in Hin]; simpl;
      repeat match goal with
             | |- context [String.eqb ?a ?b] => destruct (String.eqb_spec a b)
             end; subst; done.
Qed.

Lemma createPayment_knows_four_modes_witness :
  createPayment "CreditCard" = None ∧
  (createPayment "upi" = createPayment "upi" → "upi" = "upi").
Proof.
  destruct (createPayment_knows_four_modes "CreditCard") as [[_ Hnone] _].
  destruct (createPayment_knows_four_modes "upi") as [_ Hinj].
  split.
  - apply Hnone. unfold modes. rewrite !not_elem_of_cons.
    repeat split; try discriminate. apply not_elem_of_nil.
  - apply Hinj. unfold modes. do 2 apply list_elem_of_further.
    apply list_elem_of_here.
Defined.

(** X17: the line [pay] writes tells the class: two objects of different
    classes never write the same line, whatever the amounts. *)
Theorem pay_line_tells_class p q amount amount' :
  p ≠ q → pay p amount ≠ pay q amount'.
Proof.
  intros Hne H. destruct p, q; try done;
    unfold pay in H; cbv [String.append] in H; discriminate H.
Qed.

Lemma pay_line_tells_class_witness :
  pay CreditCard "102.22" ≠ pay UPI "343.24".
Proof. apply (pay_line_tells_class CreditCard UPI). discriminate. Defined.

End FactoryExtras.
